(** * TinyG2 switch handling (switch.cpp): model and properties

    A shallow embedding of [switch_init], [poll_switches], [read_switch],
    [_do_feedhold] and [get_switch_mode].  The C functions mutate the global
    switch table [sw], the canonical machine singleton [cm] and the indicator
    LED; here that state is passed explicitly. *)

From Stdlib Require Import ZArith List Bool Lia.
Import ListNotations.
Local Open Scope Z_scope.

(** ** Constants and types of the headers *)

(** Constants that switch.cpp takes from switch.h and canonical_machine.h.
    The headers are not among the sources and the specification gives no
    value for them, so they are parameters of the model: every property in
    [Section Properties] holds for all their values.  [TICK_BITS] is the
    width of the tick counter that [GetTickCount()] returns and
    [debounce_timeout] holds. *)
Class Headers := {
  SW_MODE_DISABLED : Z;
  SW_LIMIT_BIT : Z;
  SW_LOCKOUT_TICKS : Z;
  CYCLE_HOMING : Z;
  TICK_BITS : N
}.

(** Modelled from the spec: the swType enumerators of switch.h, which is not
    among the sources.  The code corrects the pin sense with [type ^ 1], and
    both the header comment of switch.cpp (a normally open switch triggers on
    the falling edge, a normally closed one on the rising edge) and the
    spec's polarity property (normally open, sample 0: closed) make the
    normally open wiring the one that is inverted, hence 0. *)
Definition SW_NORMALLY_OPEN : Z := 0.
Definition SW_NORMALLY_CLOSED : Z := 1.

(** Modelled from the spec: the swState enumerators of switch.h.  The comment
    of [read_switch] fixes them: 0 = open, 1 = closed, for both wirings. *)
Definition SW_OPEN : Z := 0.
Definition SW_CLOSED : Z := 1.

(** Modelled from the spec: the swEdge enumerators of switch.h
    ({none, leading, trailing}); only their being distinct matters. *)
Inductive swEdge := SW_NO_EDGE | SW_LEADING | SW_TRAILING.

Definition swEdge_eqb (a b : swEdge) : bool :=
  match a, b with
  | SW_NO_EDGE, SW_NO_EDGE | SW_LEADING, SW_LEADING | SW_TRAILING, SW_TRAILING => true
  | _, _ => false
  end.

(** Values of the callback members of [switch_t], pointers to functions
    from a switch pointer to void: the addresses of [_no_action] and
    [_do_feedhold], the two functions of that type that switch.cpp defines
    and the only values it assigns to the members. *)
Inductive sw_callback := cb_no_action | cb_do_feedhold.

(** [switch_t]: one record per switch.  The C types of the members are
    declared in switch.h; a member holds the integer last assigned to it.
    For the samples 0 and 1 and the wirings 0 and 1 every value stored in
    [state] is 0 or 1 (lemma [read_switch_state_bit]), which every integer
    type holds. *)
Record switch_t := mk_switch {
  type : Z;
  mode : Z;
  state : Z;
  edge : swEdge;
  debounce_ticks : Z;
  debounce_timeout : Z;
  when_open : sw_callback;
  when_closed : sw_callback;
  on_leading : sw_callback;
  on_trailing : sw_callback
}.

Definition set_state (s : switch_t) (v : Z) : switch_t :=
  mk_switch (type s) (mode s) v (edge s) (debounce_ticks s) (debounce_timeout s)
            (when_open s) (when_closed s) (on_leading s) (on_trailing s).

Definition set_debounce_timeout (s : switch_t) (v : Z) : switch_t :=
  mk_switch (type s) (mode s) (state s) (edge s) (debounce_ticks s) v
            (when_open s) (when_closed s) (on_leading s) (on_trailing s).

Definition set_edge (s : switch_t) (v : swEdge) : switch_t :=
  mk_switch (type s) (mode s) (state s) v (debounce_ticks s) (debounce_timeout s)
            (when_open s) (when_closed s) (on_leading s) (on_trailing s).

(** Modelled from the spec: the axes and switch positions that index the
    table [sw.s[SW_PAIRS][SW_POSITIONS]].  Their declarations are in headers
    that are not among the sources; the table has one slot per axis and
    position, and these are the axes and positions [poll_switches] names,
    so [SW_PAIRS] is 6 and [SW_POSITIONS] is 2. *)
Inductive axis := AXIS_X | AXIS_Y | AXIS_Z | AXIS_A | AXIS_B | AXIS_C.
Inductive swPosition := SW_MIN | SW_MAX.

Definition axis_eqb (a b : axis) : bool :=
  match a, b with
  | AXIS_X, AXIS_X | AXIS_Y, AXIS_Y | AXIS_Z, AXIS_Z
  | AXIS_A, AXIS_A | AXIS_B, AXIS_B | AXIS_C, AXIS_C => true
  | _, _ => false
  end.

Definition swPosition_eqb (a b : swPosition) : bool :=
  match a, b with
  | SW_MIN, SW_MIN | SW_MAX, SW_MAX => true
  | _, _ => false
  end.

(** The axes and the positions in index order: the values the loop
    variables [axis < SW_PAIRS] and [position < SW_POSITIONS] of
    [switch_init] take, in the order they take them. *)
Definition axes : list axis := [AXIS_X; AXIS_Y; AXIS_Z; AXIS_A; AXIS_B; AXIS_C].
Definition positions : list swPosition := [SW_MIN; SW_MAX].

(** [switches_t]: the global [sw], a table-wide [type] and the table. *)
Record switches_t := mk_switches {
  sw_type : Z;
  sw_s : axis -> swPosition -> switch_t
}.

(** [sw.s[a][p] = v] *)
Definition set_switch (sw : switches_t) (a : axis) (p : swPosition) (v : switch_t) : switches_t :=
  mk_switches (sw_type sw)
    (fun a' p' => if axis_eqb a a' && swPosition_eqb p p' then v else sw_s sw a' p').

(** The fields of the canonical machine singleton [cm] that switch.cpp
    touches. *)
Record cmSingleton := mk_cm {
  cycle_state : Z;
  request_feedhold : bool;
  limit_flag : bool
}.

(** The four function pointer members of [switch_t]. *)
Inductive swSlot := WHEN_OPEN | WHEN_CLOSED | ON_LEADING | ON_TRAILING.

Definition member (k : swSlot) (s : switch_t) : sw_callback :=
  match k with
  | WHEN_OPEN => when_open s
  | WHEN_CLOSED => when_closed s
  | ON_LEADING => on_leading s
  | ON_TRAILING => on_trailing s
  end.

(** What the switch code reads and writes outside the switch table: [cm] and
    the state of [IndicatorLed].  [calls] is instrumentation, not program
    state: the members called through so far, most recent first; no function
    reads it. *)
Record env := mk_env {
  cm : cmSingleton;
  IndicatorLed : bool;
  calls : list swSlot
}.

Definition log_call (k : swSlot) (e : env) : env :=
  mk_env (cm e) (IndicatorLed e) (k :: calls e).

(** ** The functions of switch.cpp *)

Section Model.
Context {hdr : Headers}.

(** [uint8_t] conversion. *)
Definition uint8 (x : Z) : Z := x mod 256.

(** Conversion to the tick counter's type. *)
Definition tick_wrap (x : Z) : Z := x mod 2 ^ Z.of_N TICK_BITS.

Definition _no_action (s : switch_t) (e : env) : switch_t * env := (s, e).

Definition _do_feedhold (s : switch_t) (e : env) : switch_t * env :=
  let e := mk_env (cm e) (negb (IndicatorLed e)) (calls e) in
  if cycle_state (cm e) =? CYCLE_HOMING then
    (s, mk_env (mk_cm (cycle_state (cm e)) true (limit_flag (cm e)))
               (IndicatorLed e) (calls e))
  else if negb (Z.land (mode s) SW_LIMIT_BIT =? 0) then
    (s, mk_env (mk_cm (cycle_state (cm e)) (request_feedhold (cm e)) true)
               (IndicatorLed e) (calls e))
  else (s, e).

(** A call through a function pointer. *)
Definition call (f : sw_callback) (s : switch_t) (e : env) : switch_t * env :=
  match f with
  | cb_no_action => _no_action s e
  | cb_do_feedhold => _do_feedhold s e
  end.

(** [s->k(s)] for a member [k], recorded in [calls]. *)
Definition invoke (k : swSlot) (s : switch_t) (e : env) : switch_t * env :=
  call (member k s) s (log_call k e).

(** The local [pin_sense_corrected] of [read_switch]. *)
Definition pin_sense_corrected (s : switch_t) (pin_value : Z) : Z :=
  uint8 (Z.lxor pin_value (Z.lxor (type s) 1)).

(** [read_switch(s, pin_value)].  [now] is what [GetTickCount()] returns
    during the call.  The result is the return value, the switch record and
    the outside state after the call. *)
Definition read_switch (s : switch_t) (pin_value now : Z) (e : env)
  : bool * switch_t * env :=
  if mode s =? SW_MODE_DISABLED then (false, s, e)
  else
    let corrected := pin_sense_corrected s pin_value in
    if corrected =? state s then
      let '(s, e) := if state s =? SW_OPEN then invoke WHEN_OPEN s e else (s, e) in
      let '(s, e) := if state s =? SW_CLOSED then invoke WHEN_CLOSED s e else (s, e) in
      (false, s, e)
    else if negb (debounce_timeout s =? 0) && (debounce_timeout s >? now) then
      (false, s, e)
    else
      let s := set_state s corrected in
      let s := set_debounce_timeout s (tick_wrap (now + debounce_ticks s)) in
      let s := set_edge s (if state s =? SW_OPEN then SW_TRAILING else SW_LEADING) in
      let '(s, e) := if swEdge_eqb (edge s) SW_LEADING then invoke ON_LEADING s e else (s, e) in
      let '(s, e) := if swEdge_eqb (edge s) SW_TRAILING then invoke ON_TRAILING s e else (s, e) in
      (true, s, e).

(** The body of the loops of [switch_init] for one slot; [mode] is not
    assigned. *)
Definition init_switch (sw : switches_t) (s : switch_t) : switch_t :=
  mk_switch (sw_type sw) (mode s) 0 SW_NO_EDGE SW_LOCKOUT_TICKS 0
            cb_no_action cb_no_action cb_do_feedhold cb_no_action.

Definition switch_init (sw : switches_t) : switches_t :=
  fold_left
    (fun sw a =>
       fold_left (fun sw p => set_switch sw a p (init_switch sw (sw_s sw a p)))
                 positions sw)
    axes sw.

(** [read_switch(&sw.s[a][p], pin)]: the return value is dropped by the
    caller.  [pins a p] is the value read from the pin of slot (a, p) and
    [now a p] the tick count during that call. *)
Definition read_slot (pins now : axis -> swPosition -> Z)
  (st : switches_t * env) (slot : axis * swPosition) : switches_t * env :=
  let '(sw, e) := st in
  let '(a, p) := slot in
  let '(_, s, e) := read_switch (sw_s sw a p) (pins a p) (now a p) e in
  (set_switch sw a p s, e).

Definition poll_switches (pins now : axis -> swPosition -> Z)
  (sw : switches_t) (e : env) : bool * switches_t * env :=
  let st := (sw, e) in
  let st := read_slot pins now st (AXIS_X, SW_MIN) in
  let st := read_slot pins now st (AXIS_X, SW_MAX) in
  let st := read_slot pins now st (AXIS_Y, SW_MIN) in
  let st := read_slot pins now st (AXIS_Y, SW_MAX) in
  let st := read_slot pins now st (AXIS_Z, SW_MIN) in
  let st := read_slot pins now st (AXIS_Z, SW_MAX) in
  let st := read_slot pins now st (AXIS_A, SW_MIN) in
  let st := read_slot pins now st (AXIS_A, SW_MAX) in
  let st := read_slot pins now st (AXIS_B, SW_MIN) in
  let st := read_slot pins now st (AXIS_B, SW_MAX) in
  let st := read_slot pins now st (AXIS_C, SW_MIN) in
  let st := read_slot pins now st (AXIS_C, SW_MAX) in
  (false, fst st, snd st).

(** [get_switch_mode(sw_num)]; the global table is in scope of the C
    function, so it is an argument here. *)
Definition get_switch_mode (sw : switches_t) (sw_num : Z) : Z := 0.

End Model.

(** ** Definitions used in the statements *)

(** The three results of [read_switch]. *)
Definition returned (x : bool * switch_t * env) : bool := fst (fst x).
Definition switch_after (x : bool * switch_t * env) : switch_t := snd (fst x).
Definition env_after (x : bool * switch_t * env) : env := snd x.

(** The switch record after lines 141-145 of switch.cpp, the three
    assignments of an accepted transition, for the corrected sample [c] at
    tick [now]. *)
Definition accepted {hdr : Headers} (s : switch_t) (c now : Z) : switch_t :=
  set_edge
    (set_debounce_timeout (set_state s c) (tick_wrap (now + debounce_ticks s)))
    (if c =? SW_OPEN then SW_TRAILING else SW_LEADING).

(** The edge callback member that goes with a corrected sample. *)
Definition edge_member (c : Z) : swSlot :=
  if c =? SW_OPEN then ON_TRAILING else ON_LEADING.

(** Successive calls of [read_switch] on one switch, as the polling loop
    makes them: [samples] gives the pin value and the tick count of each
    call, first call first.  The result collects the return values in call
    order. *)
Fixpoint read_switch_seq {hdr : Headers} (s : switch_t) (samples : list (Z * Z))
  (e : env) : list bool * switch_t * env :=
  match samples with
  | [] => ([], s, e)
  | (pin_value, now) :: rest =>
      let '(r, s, e) := read_switch s pin_value now e in
      let '(rs, s, e) := read_switch_seq s rest e in
      (r :: rs, s, e)
  end.

(** The polarity correction as the specification words it:
    [sample XOR (wiring_type == normally-closed ? 1 : 0)]. *)
Definition spec_corrected (s : switch_t) (sample : Z) : Z :=
  Z.lxor sample (if type s =? SW_NORMALLY_CLOSED then 1 else 0).

(** The slots of the table, by axis and by position within an axis. *)
Definition all_slots : list (axis * swPosition) :=
  flat_map (fun a => map (pair a) positions) axes.

(** The outside state after calling [read_switch] once for each slot of the
    list [l], first slot first, each call on the record the table [sw]
    holds for its slot, the pin sample and the tick count of that slot, and
    the outside state the call before it left. *)
Fixpoint poll_env {hdr : Headers} (pins now : axis -> swPosition -> Z)
  (sw : switches_t) (l : list (axis * swPosition)) (e : env) : env :=
  match l with
  | [] => e
  | (a, p) :: rest =>
      poll_env pins now sw rest
        (env_after (read_switch (sw_s sw a p) (pins a p) (now a p) e))
  end.

(** ** Concrete data for the examples *)

(** Modelled from the spec: values for the header constants, used only to
    evaluate the functions on examples.  The mode is a set of bit flags,
    none set for a disabled switch, the limit bit being one of them; the
    tick counter has 32 bits. *)
Definition tinyg2_h : Headers :=
  {| SW_MODE_DISABLED := 0;
     SW_LIMIT_BIT := 2;
     SW_LOCKOUT_TICKS := 100;
     CYCLE_HOMING := 3;
     TICK_BITS := 32 |}.

(** The switch of the scenario in the specification's testable properties:
    normally open, limit mode, lockout of 50 ticks, open, callbacks as
    [switch_init] binds them. *)
Definition scenario_switch : switch_t :=
  mk_switch SW_NORMALLY_OPEN 2 SW_OPEN SW_NO_EDGE 50 0
            cb_no_action cb_no_action cb_do_feedhold cb_no_action.

(** The same switch wired normally closed. *)
Definition scenario_switch_nc : switch_t :=
  mk_switch SW_NORMALLY_CLOSED 2 SW_OPEN SW_NO_EDGE 50 0
            cb_no_action cb_no_action cb_do_feedhold cb_no_action.

(** The same switch with mode 0 (disabled under [tinyg2_h]), and with mode 1
    (enabled, limit bit clear). *)
Definition disabled_switch : switch_t :=
  mk_switch SW_NORMALLY_OPEN 0 SW_OPEN SW_NO_EDGE 50 0
            cb_no_action cb_no_action cb_do_feedhold cb_no_action.

Definition homing_switch : switch_t :=
  mk_switch SW_NORMALLY_OPEN 1 SW_OPEN SW_NO_EDGE 50 0
            cb_no_action cb_no_action cb_do_feedhold cb_no_action.

(** The scenario switch after its transition to closed at tick 10. *)
Definition closed_switch : switch_t :=
  mk_switch SW_NORMALLY_OPEN 2 SW_CLOSED SW_LEADING 50 60
            cb_no_action cb_no_action cb_do_feedhold cb_no_action.

(** Outside state: not in a cycle (cycle state 0) and homing (cycle state
    3 under [tinyg2_h]); no flag set, indicator off, nothing called yet. *)
Definition idle_env : env := mk_env (mk_cm 0 false false) false [].
Definition homing_env : env := mk_env (mk_cm 3 false false) false [].

(** A table already configured when [switch_init] runs: every slot in limit
    mode. *)
Definition configured_table : switches_t :=
  mk_switches SW_NORMALLY_OPEN (fun _ _ => scenario_switch).

(** ** Properties *)

Section Properties.
Context {hdr : Headers}.

(** *** Callbacks *)

(** Neither callback writes to the switch record it is given. *)
Lemma call_switch (f : sw_callback) (s : switch_t) (e : env) :
  fst (call f s e) = s.
Proof.
  destruct f; cbn; [reflexivity|].
  unfold _do_feedhold.
  destruct (_ =? CYCLE_HOMING); [reflexivity|].
  destruct (negb _); reflexivity.
Qed.

Lemma call_calls (f : sw_callback) (s : switch_t) (e : env) :
  calls (snd (call f s e)) = calls e.
Proof.
  destruct f; cbn; [reflexivity|].
  unfold _do_feedhold.
  destruct (_ =? CYCLE_HOMING); [reflexivity|].
  destruct (negb _); reflexivity.
Qed.

Lemma invoke_switch (k : swSlot) (s : switch_t) (e : env) :
  fst (invoke k s e) = s.
Proof. apply call_switch. Qed.

Lemma invoke_calls (k : swSlot) (s : switch_t) (e : env) :
  calls (snd (invoke k s e)) = k :: calls e.
Proof. unfold invoke. rewrite call_calls. reflexivity. Qed.

Lemma invoke_eq (k : swSlot) (s : switch_t) (e : env) :
  invoke k s e = (s, snd (invoke k s e)).
Proof.
  rewrite <- (invoke_switch k s e) at 2.
  destruct (invoke k s e); reflexivity.
Qed.

(** Splits [let '(s, e) := invoke k s e in ...] into the unchanged switch
    and the outside state after the call. *)
Ltac step_invoke k s e :=
  let e' := fresh "e'" in
  let He := fresh "He'" in
  rewrite (invoke_eq k s e);
  remember (snd (invoke k s e)) as e' eqn:He;
  cbn [fst snd].

(** *** The single-switch update *)

Lemma read_switch_disabled_eq (s : switch_t) (pin_value now : Z) (e : env) :
  mode s = SW_MODE_DISABLED ->
  read_switch s pin_value now e = (false, s, e).
Proof.
  intros Hdis. unfold read_switch.
  rewrite Hdis, Z.eqb_refl. reflexivity.
Qed.

Lemma read_switch_seq_app (s : switch_t) (l1 l2 : list (Z * Z)) (e : env) :
  read_switch_seq s (l1 ++ l2) e =
  let '(r1, s1, e1) := read_switch_seq s l1 e in
  let '(r2, s2, e2) := read_switch_seq s1 l2 e1 in
  (r1 ++ r2, s2, e2).
Proof.
  revert s e. induction l1 as [|[pin_value now] l1 IH]; intros s e; cbn.
  - destruct (read_switch_seq s l2 e) as [[r2 s2] e2]. reflexivity.
  - destruct (read_switch s pin_value now e) as [[r s'] e'].
    rewrite IH.
    destruct (read_switch_seq s' l1 e') as [[r1 s1] e1].
    destruct (read_switch_seq s1 l2 e1) as [[r2 s2] e2]. reflexivity.
Qed.

(** C6: a disabled switch is inert.  Every call of [read_switch], for any
    pin sample and tick count, returns false and leaves the whole switch
    record and the outside state (so also the record of callback calls) as
    they were; hence so does any sequence of calls. *)
Theorem read_switch_disabled (s : switch_t) (e : env) :
  mode s = SW_MODE_DISABLED ->
  (forall pin_value now, read_switch s pin_value now e = (false, s, e)) /\
  (forall samples,
     read_switch_seq s samples e = (repeat false (length samples), s, e)).
Proof.
  intros Hdis. split.
  - intros pin_value now. apply read_switch_disabled_eq. exact Hdis.
  - intros samples. induction samples as [|[pin_value now] rest IH]; cbn.
    + reflexivity.
    + rewrite (read_switch_disabled_eq s pin_value now e Hdis), IH. reflexivity.
Qed.


(** The three outcomes of [read_switch] on an enabled switch, as equations. *)

Lemma read_switch_same (s : switch_t) (pin_value now : Z) (e : env) :
  mode s <> SW_MODE_DISABLED ->
  pin_sense_corrected s pin_value = state s ->
  returned (read_switch s pin_value now e) = false /\
  switch_after (read_switch s pin_value now e) = s.
Proof.
  intros Hen Hsame. unfold read_switch.
  destruct (Z.eqb_spec (mode s) SW_MODE_DISABLED) as [|_]; [contradiction|].
  rewrite Hsame, Z.eqb_refl.
  destruct (state s =? SW_OPEN).
  - step_invoke WHEN_OPEN s e.
    destruct (state s =? SW_CLOSED); [step_invoke WHEN_CLOSED s e'|]; split; reflexivity.
  - destruct (state s =? SW_CLOSED); [step_invoke WHEN_CLOSED s e|]; split; reflexivity.
Qed.

Lemma read_switch_suppressed (s : switch_t) (pin_value now : Z) (e : env) :
  mode s <> SW_MODE_DISABLED ->
  pin_sense_corrected s pin_value <> state s ->
  debounce_timeout s <> 0 ->
  now < debounce_timeout s ->
  read_switch s pin_value now e = (false, s, e).
Proof.
  intros Hen Hne Hnz Hlt. unfold read_switch.
  destruct (Z.eqb_spec (mode s) SW_MODE_DISABLED) as [|_]; [contradiction|].
  destruct (Z.eqb_spec (pin_sense_corrected s pin_value) (state s)) as [|_];
    [contradiction|].
  destruct (Z.eqb_spec (debounce_timeout s) 0) as [|_]; [contradiction|].
  rewrite Z.gtb_ltb. apply Z.ltb_lt in Hlt. rewrite Hlt. reflexivity.
Qed.

Lemma read_switch_accept (s : switch_t) (pin_value now : Z) (e : env) :
  mode s <> SW_MODE_DISABLED ->
  pin_sense_corrected s pin_value <> state s ->
  debounce_timeout s = 0 \/ debounce_timeout s <= now ->
  let c := pin_sense_corrected s pin_value in
  read_switch s pin_value now e =
  (true, accepted s c now, snd (invoke (edge_member c) (accepted s c now) e)).
Proof.
  intros Hen Hne Hfree c. unfold read_switch. fold c.
  destruct (Z.eqb_spec (mode s) SW_MODE_DISABLED) as [|_]; [contradiction|].
  destruct (Z.eqb_spec c (state s)) as [|_]; [contradiction|].
  replace (negb (debounce_timeout s =? 0) && (debounce_timeout s >? now)) with false.
  2:{ symmetry. destruct Hfree as [H0|Hle].
      - rewrite H0. reflexivity.
      - apply andb_false_intro2. rewrite Z.gtb_ltb. apply Z.ltb_ge. exact Hle. }
  unfold accepted, edge_member.
  cbn [set_state set_debounce_timeout set_edge state edge debounce_ticks].
  destruct (c =? SW_OPEN); cbn [swEdge_eqb].
  - match goal with |- context [invoke ON_TRAILING ?x e] => step_invoke ON_TRAILING x e end.
    reflexivity.
  - match goal with |- context [invoke ON_LEADING ?x e] => step_invoke ON_LEADING x e end.
    reflexivity.
Qed.

(** [read_switch] returns true only for an accepted transition. *)
Lemma read_switch_true (s : switch_t) (pin_value now : Z) (e : env)
  (s' : switch_t) (e' : env) :
  read_switch s pin_value now e = (true, s', e') ->
  mode s <> SW_MODE_DISABLED /\
  pin_sense_corrected s pin_value <> state s /\
  s' = accepted s (pin_sense_corrected s pin_value) now.
Proof.
  intros H.
  destruct (Z.eq_dec (mode s) SW_MODE_DISABLED) as [Hdis|Hen].
  { rewrite (read_switch_disabled_eq s pin_value now e Hdis) in H. discriminate. }
  destruct (Z.eq_dec (pin_sense_corrected s pin_value) (state s)) as [Heq|Hne].
  { destruct (read_switch_same s pin_value now e Hen Heq) as [Hr _].
    rewrite H in Hr. discriminate. }
  destruct (Z.eq_dec (debounce_timeout s) 0) as [H0|Hnz].
  - rewrite (read_switch_accept s pin_value now e Hen Hne (or_introl H0)) in H.
    inversion H. repeat split; assumption.
  - destruct (Z_lt_le_dec now (debounce_timeout s)) as [Hlt|Hle].
    + rewrite (read_switch_suppressed s pin_value now e Hen Hne Hnz Hlt) in H.
      discriminate.
    + rewrite (read_switch_accept s pin_value now e Hen Hne (or_intror Hle)) in H.
      inversion H. repeat split; assumption.
Qed.

(** C5: an accepted transition.  For an enabled switch whose corrected
    sample differs from its logical state outside a lockout window,
    [read_switch] returns true, stores the corrected sample and arms the
    lockout; if the new state is open the edge is trailing and [on_trailing]
    alone is called, once; if the new state is closed (in fact whenever it
    is not open) the edge is leading and [on_leading] alone is called,
    once. *)
Theorem read_switch_transition (s : switch_t) (pin_value now : Z) (e : env) :
  mode s <> SW_MODE_DISABLED ->
  pin_sense_corrected s pin_value <> state s ->
  debounce_timeout s = 0 \/ debounce_timeout s <= now ->
  let '(r, s', e') := read_switch s pin_value now e in
  r = true /\
  state s' = pin_sense_corrected s pin_value /\
  debounce_timeout s' = tick_wrap (now + debounce_ticks s) /\
  (state s' = SW_OPEN ->
     edge s' = SW_TRAILING /\
     e' = snd (invoke ON_TRAILING s' e) /\ calls e' = ON_TRAILING :: calls e) /\
  (state s' = SW_CLOSED ->
     edge s' = SW_LEADING /\
     e' = snd (invoke ON_LEADING s' e) /\ calls e' = ON_LEADING :: calls e) /\
  (state s' <> SW_OPEN -> edge s' = SW_LEADING /\ calls e' = ON_LEADING :: calls e).
Proof.
  intros Hen Hne Hfree.
  rewrite (read_switch_accept s pin_value now e Hen Hne Hfree).
  unfold accepted, edge_member. cbn [state edge debounce_timeout set_edge set_debounce_timeout set_state].
  destruct (Z.eqb_spec (pin_sense_corrected s pin_value) SW_OPEN) as [Ho|Ho];
    repeat split; intros; try reflexivity; try apply invoke_calls;
    unfold SW_OPEN, SW_CLOSED in *; congruence.
Qed.

(** A call on an enabled switch either leaves the record alone or is an
    accepted transition. *)
Lemma read_switch_cases (s : switch_t) (pin_value now : Z) (e : env) :
  switch_after (read_switch s pin_value now e) = s \/
  switch_after (read_switch s pin_value now e) =
    accepted s (pin_sense_corrected s pin_value) now.
Proof.
  destruct (Z.eq_dec (mode s) SW_MODE_DISABLED) as [Hdis|Hen].
  { left. rewrite (read_switch_disabled_eq s pin_value now e Hdis). reflexivity. }
  destruct (Z.eq_dec (pin_sense_corrected s pin_value) (state s)) as [Heq|Hne].
  { left. apply read_switch_same; assumption. }
  destruct (Z.eq_dec (debounce_timeout s) 0) as [H0|Hnz].
  - right. rewrite (read_switch_accept s pin_value now e Hen Hne (or_introl H0)).
    reflexivity.
  - destruct (Z_lt_le_dec now (debounce_timeout s)) as [Hlt|Hle].
    + left. rewrite (read_switch_suppressed s pin_value now e Hen Hne Hnz Hlt).
      reflexivity.
    + right. rewrite (read_switch_accept s pin_value now e Hen Hne (or_intror Hle)).
      reflexivity.
Qed.

(** With samples 0 and 1 and wirings 0 and 1 the logical state stays one of
    open and closed. *)
Lemma read_switch_state_bit (s : switch_t) (pin_value now : Z) (e : env) :
  type s = SW_NORMALLY_OPEN \/ type s = SW_NORMALLY_CLOSED ->
  pin_value = 0 \/ pin_value = 1 ->
  state s = SW_OPEN \/ state s = SW_CLOSED ->
  state (switch_after (read_switch s pin_value now e)) = SW_OPEN \/
  state (switch_after (read_switch s pin_value now e)) = SW_CLOSED.
Proof.
  intros Hty Hpin Hst.
  destruct (read_switch_cases s pin_value now e) as [-> | ->]; [exact Hst|].
  unfold accepted, pin_sense_corrected. cbn [state set_edge set_debounce_timeout set_state].
  destruct Hty as [-> | ->], Hpin as [-> | ->]; cbn; auto.
Qed.

(** The calls a steady poll records. *)
Lemma read_switch_same_calls (s : switch_t) (pin_value now : Z) (e : env) :
  mode s <> SW_MODE_DISABLED ->
  pin_sense_corrected s pin_value = state s ->
  exists ks,
    calls (env_after (read_switch s pin_value now e)) = ks ++ calls e /\
    Forall (fun k => k = WHEN_OPEN \/ k = WHEN_CLOSED) ks.
Proof.
  intros Hen Hsame. unfold read_switch.
  destruct (Z.eqb_spec (mode s) SW_MODE_DISABLED) as [|_]; [contradiction|].
  rewrite Hsame, Z.eqb_refl.
  destruct (Z.eqb_spec (state s) SW_OPEN) as [Ho|Ho].
  - step_invoke WHEN_OPEN s e. rewrite Ho. cbn.
    exists [WHEN_OPEN]. subst e'. rewrite invoke_calls. auto.
  - destruct (state s =? SW_CLOSED).
    + step_invoke WHEN_CLOSED s e. cbn.
      exists [WHEN_CLOSED]. subst e'. rewrite invoke_calls. auto.
    + exists []. cbn. auto.
Qed.

(** With the lockout armed, polls that are steady or come before its end
    return false, leave the switch record alone and call no edge callback,
    however many there are. *)
Lemma read_switch_seq_quiet (s : switch_t) (L : Z) (quiet : list (Z * Z)) (e : env) :
  mode s <> SW_MODE_DISABLED ->
  debounce_timeout s = L -> L <> 0 ->
  Forall (fun x => pin_sense_corrected s (fst x) = state s \/ snd x < L) quiet ->
  exists e' ks,
    read_switch_seq s quiet e = (repeat false (length quiet), s, e') /\
    calls e' = ks ++ calls e /\
    Forall (fun k => k = WHEN_OPEN \/ k = WHEN_CLOSED) ks.
Proof.
  intros Hen HL Hnz Hq. revert e.
  induction Hq as [|[pin_value now] rest Hx _ IH]; intros e.
  - exists e, []. cbn. auto.
  - cbn [fst snd] in Hx. cbn [read_switch_seq].
    destruct (Z.eq_dec (pin_sense_corrected s pin_value) (state s)) as [Heq|Hne].
    + destruct (read_switch_same s pin_value now e Hen Heq) as [Hr Hs].
      destruct (read_switch_same_calls s pin_value now e Hen Heq) as (k1 & Hc1 & Hk1).
      destruct (read_switch s pin_value now e) as [[r s1] e1].
      unfold returned, switch_after, env_after in *. cbn [fst snd] in *. subst r s1.
      destruct (IH e1) as (e' & ks & Hseq & Hc & Hk).
      rewrite Hseq. exists e', (ks ++ k1). cbn [length repeat].
      split; [reflexivity|]. split.
      * rewrite Hc, Hc1. apply app_assoc.
      * apply Forall_app. split; assumption.
    + destruct Hx as [Heq|Hlt]; [contradiction|].
      rewrite (read_switch_suppressed s pin_value now e Hen Hne); [|lia|lia].
      destruct (IH e) as (e' & ks & Hseq & Hc & Hk).
      rewrite Hseq. exists e', ks. auto.
Qed.

(** C2: debounce suppression.  Let a transition of a switch be accepted at
    tick [T] with lockout duration [D], where [T + D] is a non-zero tick
    count (so that [debounce_timeout] is [T + D]).  Then every call whose
    corrected sample differs from the logical state at a tick before
    [T + D] returns false and leaves the switch record and the outside
    state, so also the record of callback calls, as they were; a differing
    sample at a tick from [T + D] on is accepted; and after any number of
    polls that were steady or came before [T + D], none of which changes
    the switch record or calls an edge callback, the first differing sample
    at a tick from [T + D] on is the accepted one. *)
Theorem read_switch_lockout (s0 : switch_t) (pin0 T : Z) (e0 : env)
  (s1 : switch_t) (e1 : env) (D : Z) :
  read_switch s0 pin0 T e0 = (true, s1, e1) ->
  debounce_ticks s0 = D ->
  0 <= T + D < 2 ^ Z.of_N TICK_BITS ->
  T + D <> 0 ->
  debounce_timeout s1 = T + D /\
  (forall pin_value now e,
     pin_sense_corrected s1 pin_value <> state s1 -> now < T + D ->
     read_switch s1 pin_value now e = (false, s1, e)) /\
  (forall pin_value now e,
     pin_sense_corrected s1 pin_value <> state s1 -> T + D <= now ->
     let c := pin_sense_corrected s1 pin_value in
     read_switch s1 pin_value now e =
     (true, accepted s1 c now, snd (invoke (edge_member c) (accepted s1 c now) e))) /\
  (forall quiet pin_value now e,
     Forall (fun x => pin_sense_corrected s1 (fst x) = state s1 \/ snd x < T + D) quiet ->
     pin_sense_corrected s1 pin_value <> state s1 -> T + D <= now ->
     let c := pin_sense_corrected s1 pin_value in
     exists e' ks,
       read_switch_seq s1 quiet e = (repeat false (length quiet), s1, e') /\
       calls e' = ks ++ calls e /\
       Forall (fun k => k = WHEN_OPEN \/ k = WHEN_CLOSED) ks /\
       read_switch_seq s1 (quiet ++ [(pin_value, now)]) e =
       (repeat false (length quiet) ++ [true], accepted s1 c now,
        snd (invoke (edge_member c) (accepted s1 c now) e'))).
Proof.
  intros Hacc HD Hrange Hnz.
  destruct (read_switch_true _ _ _ _ _ _ Hacc) as (Hen0 & _ & Hs1).
  assert (Hto : debounce_timeout s1 = T + D).
  { rewrite Hs1. unfold accepted. cbn. rewrite HD.
    unfold tick_wrap. apply Z.mod_small. exact Hrange. }
  assert (Hen1 : mode s1 <> SW_MODE_DISABLED).
  { rewrite Hs1. unfold accepted. cbn. exact Hen0. }
  split; [exact Hto|].
  split; [|split].
  - intros pin_value now e Hne Hlt.
    apply read_switch_suppressed; try assumption; rewrite Hto; assumption.
  - intros pin_value now e Hne Hge c.
    apply read_switch_accept; try assumption. right. rewrite Hto. exact Hge.
  - intros quiet pin_value now e Hq Hne Hge c.
    destruct (read_switch_seq_quiet s1 (T + D) quiet e Hen1 Hto Hnz Hq)
      as (e' & ks & Hseq & Hc & Hk).
    exists e', ks. repeat split; try assumption.
    rewrite read_switch_seq_app, Hseq.
    cbn [read_switch_seq].
    rewrite (read_switch_accept s1 pin_value now e' Hen1 Hne);
      [|right; rewrite Hto; exact Hge].
    reflexivity.
Qed.

(** The state an enabled switch has after a call outside a lockout window
    is the corrected sample. *)
Lemma read_switch_state (s : switch_t) (pin_value now : Z) (e : env) :
  mode s <> SW_MODE_DISABLED ->
  debounce_timeout s = 0 \/ debounce_timeout s <= now ->
  state (switch_after (read_switch s pin_value now e)) = pin_sense_corrected s pin_value.
Proof.
  intros Hen Hfree.
  destruct (Z.eq_dec (pin_sense_corrected s pin_value) (state s)) as [Heq|Hne].
  - destruct (read_switch_same s pin_value now e Hen Heq) as [_ Hs].
    rewrite Hs. symmetry. exact Heq.
  - rewrite (read_switch_accept s pin_value now e Hen Hne Hfree). reflexivity.
Qed.

(** C3: polarity.  For a normally open switch the raw sample 0 is corrected
    to closed and 1 to open; for a normally closed switch 0 is corrected to
    open and 1 to closed; and that is the logical state [read_switch] leaves
    in an enabled switch that is not locked out.  So the two wirings map the
    same raw sample to opposite states. *)
Theorem read_switch_polarity (s : switch_t) (now : Z) (e : env) :
  mode s <> SW_MODE_DISABLED ->
  debounce_timeout s = 0 \/ debounce_timeout s <= now ->
  (type s = SW_NORMALLY_OPEN ->
     pin_sense_corrected s 0 = SW_CLOSED /\
     pin_sense_corrected s 1 = SW_OPEN /\
     state (switch_after (read_switch s 0 now e)) = SW_CLOSED /\
     state (switch_after (read_switch s 1 now e)) = SW_OPEN) /\
  (type s = SW_NORMALLY_CLOSED ->
     pin_sense_corrected s 0 = SW_OPEN /\
     pin_sense_corrected s 1 = SW_CLOSED /\
     state (switch_after (read_switch s 0 now e)) = SW_OPEN /\
     state (switch_after (read_switch s 1 now e)) = SW_CLOSED).
Proof.
  intros Hen Hfree.
  split; intros Hty; rewrite !(read_switch_state s _ now e Hen Hfree);
    unfold pin_sense_corrected; rewrite Hty; repeat split; reflexivity.
Qed.

(** *** The polarity correction *)

Lemma lxor_uint8 (a b : Z) :
  0 <= a < 256 -> 0 <= b < 256 -> 0 <= Z.lxor a b < 256.
Proof.
  intros Ha Hb.
  assert (Hnn : 0 <= Z.lxor a b) by (apply Z.lxor_nonneg; lia).
  split; [exact Hnn|].
  destruct (Z.eq_dec (Z.lxor a b) 0) as [H0|H0]; [lia|].
  change 256 with (2 ^ 8). apply Z.log2_lt_pow2; [lia|].
  pose proof (Z.log2_lxor a b ltac:(lia) ltac:(lia)) as Hl.
  assert (Z.log2 a < 8).
  { destruct (Z.eq_dec a 0) as [->|]; [cbn; lia|].
    apply Z.log2_lt_pow2; [lia|]. change (2 ^ 8) with 256. lia. }
  assert (Z.log2 b < 8).
  { destruct (Z.eq_dec b 0) as [->|]; [cbn; lia|].
    apply Z.log2_lt_pow2; [lia|]. change (2 ^ 8) with 256. lia. }
  lia.
Qed.

(** C4, as the code has it: the corrected sample is the raw sample XOR 1
    for a normally open switch and the raw sample itself for a normally
    closed one (for a sample that fits [uint8_t]); and the corrected values
    0 and 1 are the logical states open and closed that [read_switch]
    leaves in an enabled switch that is not locked out. *)
Theorem pin_sense_corrected_formula (s : switch_t) (pin_value now : Z) (e : env) :
  0 <= pin_value < 256 ->
  mode s <> SW_MODE_DISABLED ->
  debounce_timeout s = 0 \/ debounce_timeout s <= now ->
  (type s = SW_NORMALLY_OPEN -> pin_sense_corrected s pin_value = Z.lxor pin_value 1) /\
  (type s = SW_NORMALLY_CLOSED -> pin_sense_corrected s pin_value = pin_value) /\
  (pin_sense_corrected s pin_value = 0 ->
     state (switch_after (read_switch s pin_value now e)) = SW_OPEN) /\
  (pin_sense_corrected s pin_value = 1 ->
     state (switch_after (read_switch s pin_value now e)) = SW_CLOSED).
Proof.
  intros Hpin Hen Hfree.
  rewrite (read_switch_state s pin_value now e Hen Hfree).
  unfold pin_sense_corrected, uint8.
  repeat split.
  - intros ->. cbn [SW_NORMALLY_OPEN Z.lxor].
    apply Z.mod_small. apply lxor_uint8; lia.
  - intros ->. cbn [SW_NORMALLY_CLOSED Z.lxor Pos.lxor].
    rewrite Z.lxor_0_r. apply Z.mod_small. exact Hpin.
  - intros H. exact H.
  - intros H. exact H.
Qed.

(** *** The escalation action *)

(** C1: [_do_feedhold] always toggles the indicator and never writes to the
    switch record or to the cycle state.  While homing it sets the feedhold
    request whatever the mode of the switch, and leaves the limit flag
    alone; when not homing it sets the limit flag if the mode has the limit
    bit, leaving the feedhold request alone; when not homing and without
    the limit bit it changes nothing of the canonical machine. *)
Theorem do_feedhold_escalation (s : switch_t) (e : env) :
  let '(s', e') := _do_feedhold s e in
  s' = s /\
  IndicatorLed e' = negb (IndicatorLed e) /\
  calls e' = calls e /\
  cycle_state (cm e') = cycle_state (cm e) /\
  (cycle_state (cm e) = CYCLE_HOMING ->
     request_feedhold (cm e') = true /\ limit_flag (cm e') = limit_flag (cm e)) /\
  (cycle_state (cm e) <> CYCLE_HOMING -> Z.land (mode s) SW_LIMIT_BIT <> 0 ->
     limit_flag (cm e') = true /\
     request_feedhold (cm e') = request_feedhold (cm e)) /\
  (cycle_state (cm e) <> CYCLE_HOMING -> Z.land (mode s) SW_LIMIT_BIT = 0 ->
     cm e' = cm e).
Proof.
  unfold _do_feedhold. cbn [cm IndicatorLed calls].
  destruct (Z.eqb_spec (cycle_state (cm e)) CYCLE_HOMING) as [Hh|Hh].
  - cbn. repeat split; intros; try reflexivity; contradiction.
  - destruct (Z.eqb_spec (Z.land (mode s) SW_LIMIT_BIT) 0) as [Hl|Hl]; cbn;
      repeat split; intros; try reflexivity; contradiction.
Qed.

(** The default binding: the leading edge of an enabled switch whose
    [on_leading] is [_do_feedhold] runs the escalation action once. *)
Lemma leading_edge_escalates (s : switch_t) (pin_value now : Z) (e : env) :
  mode s <> SW_MODE_DISABLED ->
  on_leading s = cb_do_feedhold ->
  pin_sense_corrected s pin_value <> state s ->
  pin_sense_corrected s pin_value <> SW_OPEN ->
  debounce_timeout s = 0 \/ debounce_timeout s <= now ->
  env_after (read_switch s pin_value now e) =
  snd (_do_feedhold (switch_after (read_switch s pin_value now e)) (log_call ON_LEADING e)).
Proof.
  intros Hen Hcb Hne Hno Hfree.
  rewrite (read_switch_accept s pin_value now e Hen Hne Hfree).
  unfold env_after, switch_after, edge_member. cbn [fst snd].
  destruct (Z.eqb_spec (pin_sense_corrected s pin_value) SW_OPEN) as [|_];
    [contradiction|].
  unfold invoke, accepted. cbn [member on_leading set_edge set_debounce_timeout set_state].
  rewrite Hcb. reflexivity.
Qed.

(** *** The whole table *)

(** C9, as the code has it: after [switch_init] every slot has the table's
    [type], state open, no edge, the default lockout duration, no lockout
    armed, [_no_action] bound to the two steady callbacks and to the
    trailing edge and [_do_feedhold] to the leading edge; its [mode] is the
    one it had before the call, so a slot is disabled afterwards exactly
    when it was before. *)
Theorem switch_init_slots (sw : switches_t) (a : axis) (p : swPosition) :
  let s := sw_s (switch_init sw) a p in
  mode s = mode (sw_s sw a p) /\
  type s = sw_type sw /\
  state s = SW_OPEN /\
  edge s = SW_NO_EDGE /\
  debounce_ticks s = SW_LOCKOUT_TICKS /\
  debounce_timeout s = 0 /\
  when_open s = cb_no_action /\
  when_closed s = cb_no_action /\
  on_leading s = cb_do_feedhold /\
  on_trailing s = cb_no_action /\
  sw_type (switch_init sw) = sw_type sw.
Proof.
  destruct a, p; cbn; repeat split; reflexivity.
Qed.

(** C10: [get_switch_mode] is 0 for every switch number and every table: it
    does not depend on the table, so it reports no configured mode. *)
Theorem get_switch_mode_zero (sw sw' : switches_t) (sw_num : Z) :
  get_switch_mode sw sw_num = 0 /\
  get_switch_mode sw sw_num = get_switch_mode sw' sw_num.
Proof.
  unfold get_switch_mode. split; reflexivity.
Qed.

(** ** Further properties of the single-switch update *)

(** The two outcomes of a call, with what an accepted transition needs. *)
Lemma read_switch_outcome (s : switch_t) (pin_value now : Z) (e : env) :
  (returned (read_switch s pin_value now e) = false /\
   switch_after (read_switch s pin_value now e) = s) \/
  (returned (read_switch s pin_value now e) = true /\
   switch_after (read_switch s pin_value now e) =
     accepted s (pin_sense_corrected s pin_value) now /\
   pin_sense_corrected s pin_value <> state s /\
   mode s <> SW_MODE_DISABLED /\
   (debounce_timeout s = 0 \/ debounce_timeout s <= now)).
Proof.
  destruct (Z.eq_dec (mode s) SW_MODE_DISABLED) as [Hdis|Hen].
  { left. rewrite (read_switch_disabled_eq s pin_value now e Hdis). split; reflexivity. }
  destruct (Z.eq_dec (pin_sense_corrected s pin_value) (state s)) as [Heq|Hne].
  { left. apply read_switch_same; assumption. }
  destruct (Z.eq_dec (debounce_timeout s) 0) as [H0|Hnz].
  - right. rewrite (read_switch_accept s pin_value now e Hen Hne (or_introl H0)).
    repeat split; auto.
  - destruct (Z_lt_le_dec now (debounce_timeout s)) as [Hlt|Hle].
    + left. rewrite (read_switch_suppressed s pin_value now e Hen Hne Hnz Hlt).
      split; reflexivity.
    + right. rewrite (read_switch_accept s pin_value now e Hen Hne (or_intror Hle)).
      repeat split; auto.
Qed.

(** X1: the return value of [read_switch] tells whether the logical state
    changed, as its comment says: it is true exactly when the state after
    the call differs from the state before, and when it is false the whole
    switch record is as it was. *)
Theorem read_switch_return_value (s : switch_t) (pin_value now : Z) (e : env) :
  (returned (read_switch s pin_value now e) = true <->
   state (switch_after (read_switch s pin_value now e)) <> state s) /\
  (returned (read_switch s pin_value now e) = false <->
   switch_after (read_switch s pin_value now e) = s).
Proof.
  destruct (read_switch_outcome s pin_value now e)
    as [[Hr Hs] | (Hr & Hs & Hne & _)]; rewrite Hr, Hs.
  - split; split; intros H; try reflexivity; try discriminate.
    contradiction H. reflexivity.
  - assert (Hst : state (accepted s (pin_sense_corrected s pin_value) now) <> state s)
      by exact Hne.
    split; split; intros H; try reflexivity; try assumption; try discriminate.
    rewrite H in Hst. contradiction Hst. reflexivity.
Qed.

(** The members that configuration sets and [read_switch] only reads. *)
Definition same_config (s s' : switch_t) : Prop :=
  type s' = type s /\ mode s' = mode s /\ debounce_ticks s' = debounce_ticks s /\
  when_open s' = when_open s /\ when_closed s' = when_closed s /\
  on_leading s' = on_leading s /\ on_trailing s' = on_trailing s.

Lemma read_switch_config (s : switch_t) (pin_value now : Z) (e : env) :
  same_config s (switch_after (read_switch s pin_value now e)).
Proof.
  destruct (read_switch_cases s pin_value now e) as [-> | ->];
    unfold same_config, accepted; cbn; repeat split; reflexivity.
Qed.

(** X2: polling never reconfigures a switch: after any sequence of calls of
    [read_switch] the wiring type, the mode, the lockout duration and the
    four callbacks are the ones the switch had. *)
Theorem read_switch_seq_config (s : switch_t) (samples : list (Z * Z)) (e : env) :
  same_config s (snd (fst (read_switch_seq s samples e))).
Proof.
  revert s e. induction samples as [|[pin_value now] rest IH]; intros s e.
  - cbn. unfold same_config. repeat split; reflexivity.
  - cbn [read_switch_seq].
    pose proof (read_switch_config s pin_value now e) as Hc.
    destruct (read_switch s pin_value now e) as [[r s1] e1].
    unfold switch_after in Hc. cbn [fst snd] in Hc.
    specialize (IH s1 e1).
    destruct (read_switch_seq s1 rest e1) as [[rs s2] e2]. cbn [fst snd] in *.
    unfold same_config in *.
    destruct Hc as (H1 & H2 & H3 & H4 & H5 & H6 & H7).
    destruct IH as (I1 & I2 & I3 & I4 & I5 & I6 & I7).
    repeat split; congruence.
Qed.

Lemma read_switch_env_indep (s : switch_t) (pin_value now : Z) (e1 e2 : env) :
  returned (read_switch s pin_value now e1) = returned (read_switch s pin_value now e2) /\
  switch_after (read_switch s pin_value now e1) =
  switch_after (read_switch s pin_value now e2).
Proof.
  destruct (Z.eq_dec (mode s) SW_MODE_DISABLED) as [Hdis|Hen].
  { rewrite !(read_switch_disabled_eq s pin_value now _ Hdis). split; reflexivity. }
  destruct (Z.eq_dec (pin_sense_corrected s pin_value) (state s)) as [Heq|Hne].
  { destruct (read_switch_same s pin_value now e1 Hen Heq) as [-> ->].
    destruct (read_switch_same s pin_value now e2 Hen Heq) as [-> ->].
    split; reflexivity. }
  destruct (Z.eq_dec (debounce_timeout s) 0) as [H0|Hnz].
  - rewrite !(read_switch_accept s pin_value now _ Hen Hne (or_introl H0)).
    split; reflexivity.
  - destruct (Z_lt_le_dec now (debounce_timeout s)) as [Hlt|Hle].
    + rewrite !(read_switch_suppressed s pin_value now _ Hen Hne Hnz Hlt).
      split; reflexivity.
    + rewrite !(read_switch_accept s pin_value now _ Hen Hne (or_intror Hle)).
      split; reflexivity.
Qed.

(** X3: debouncing does not depend on the machine.  The return values and
    the switch record that a sequence of calls of [read_switch] produces are
    the same whatever the cycle state, the request flags and the indicator
    are: only the callbacks read the outside state, and they do not write to
    the switch. *)
Theorem read_switch_seq_env_indep (s : switch_t) (samples : list (Z * Z)) (e1 e2 : env) :
  fst (read_switch_seq s samples e1) = fst (read_switch_seq s samples e2).
Proof.
  revert s e1 e2. induction samples as [|[pin_value now] rest IH]; intros s e1 e2.
  - reflexivity.
  - cbn [read_switch_seq].
    destruct (read_switch_env_indep s pin_value now e1 e2) as [Hr Hs].
    destruct (read_switch s pin_value now e1) as [[r1 s1] e1'].
    destruct (read_switch s pin_value now e2) as [[r2 s2] e2'].
    unfold returned, switch_after in *. cbn [fst snd] in *. subst r2 s2.
    specialize (IH s1 e1' e2').
    destruct (read_switch_seq s1 rest e1') as [[rs1 t1] f1].
    destruct (read_switch_seq s1 rest e2') as [[rs2 t2] f2].
    cbn [fst] in *. inversion IH. reflexivity.
Qed.

(** X11: the direction of an edge.  With samples 0 and 1, wirings 0 and 1
    and a state that is open or closed, an accepted transition flips the
    state: it is a leading edge exactly when the switch went from open to
    closed and a trailing edge exactly when it went from closed to open. *)
Theorem read_switch_edge_direction (s : switch_t) (pin_value now : Z) (e : env) :
  type s = SW_NORMALLY_OPEN \/ type s = SW_NORMALLY_CLOSED ->
  pin_value = 0 \/ pin_value = 1 ->
  state s = SW_OPEN \/ state s = SW_CLOSED ->
  returned (read_switch s pin_value now e) = true ->
  let s' := switch_after (read_switch s pin_value now e) in
  (state s = SW_OPEN /\ state s' = SW_CLOSED /\ edge s' = SW_LEADING) \/
  (state s = SW_CLOSED /\ state s' = SW_OPEN /\ edge s' = SW_TRAILING).
Proof.
  intros Hty Hpin Hst Htrue s'. subst s'.
  destruct (read_switch_outcome s pin_value now e)
    as [[Hr _] | (_ & Hs & Hne & _)]; [rewrite Hr in Htrue; discriminate|].
  rewrite Hs. unfold accepted. cbn [state edge set_edge set_debounce_timeout set_state].
  revert Hne. unfold pin_sense_corrected.
  destruct Hty as [-> | ->], Hpin as [-> | ->], Hst as [-> | ->]; cbn;
    intros Hne; auto; contradiction Hne; reflexivity.
Qed.

(** ** What a call does to the outside state *)

Lemma invoke_env (k : swSlot) (s : switch_t) (e : env) :
  snd (invoke k s e) = log_call k e \/
  snd (invoke k s e) = snd (_do_feedhold s (log_call k e)).
Proof. unfold invoke, call. destruct (member k s); auto. Qed.

(** A call runs no callback or one, on a record with the mode of the
    switch. *)
Lemma read_switch_env_cases (s : switch_t) (pin_value now : Z) (e : env) :
  env_after (read_switch s pin_value now e) = e \/
  exists k s',
    mode s' = mode s /\
    env_after (read_switch s pin_value now e) = snd (invoke k s' e).
Proof.
  destruct (Z.eq_dec (mode s) SW_MODE_DISABLED) as [Hdis|Hen].
  { left. rewrite (read_switch_disabled_eq s pin_value now e Hdis). reflexivity. }
  destruct (Z.eq_dec (pin_sense_corrected s pin_value) (state s)) as [Heq|Hne].
  { unfold read_switch.
    destruct (Z.eqb_spec (mode s) SW_MODE_DISABLED) as [|_]; [contradiction|].
    rewrite Heq, Z.eqb_refl.
    destruct (Z.eqb_spec (state s) SW_OPEN) as [Ho|Ho].
    - step_invoke WHEN_OPEN s e. rewrite Ho. cbn.
      right. exists WHEN_OPEN, s. subst e'. auto.
    - destruct (state s =? SW_CLOSED).
      + step_invoke WHEN_CLOSED s e. right. exists WHEN_CLOSED, s. subst e'. auto.
      + left. reflexivity. }
  destruct (Z.eq_dec (debounce_timeout s) 0) as [H0|Hnz].
  - right. rewrite (read_switch_accept s pin_value now e Hen Hne (or_introl H0)).
    eexists _, _. split; [|reflexivity]. reflexivity.
  - destruct (Z_lt_le_dec now (debounce_timeout s)) as [Hlt|Hle].
    + left. rewrite (read_switch_suppressed s pin_value now e Hen Hne Hnz Hlt).
      reflexivity.
    + right. rewrite (read_switch_accept s pin_value now e Hen Hne (or_intror Hle)).
      eexists _, _. split; [|reflexivity]. reflexivity.
Qed.

(** How the outside state after a call relates to the one before: the
    cycle state is only read; the two flags are only ever set; the limit
    flag is left alone while homing and for a switch without the limit bit;
    the feedhold request is left alone outside homing. *)
Definition escalated (m : Z) (e e' : env) : Prop :=
  cycle_state (cm e') = cycle_state (cm e) /\
  (request_feedhold (cm e) = true -> request_feedhold (cm e') = true) /\
  (limit_flag (cm e) = true -> limit_flag (cm e') = true) /\
  (cycle_state (cm e) = CYCLE_HOMING -> limit_flag (cm e') = limit_flag (cm e)) /\
  (cycle_state (cm e) <> CYCLE_HOMING ->
     request_feedhold (cm e') = request_feedhold (cm e)) /\
  (Z.land m SW_LIMIT_BIT = 0 -> limit_flag (cm e') = limit_flag (cm e)).

Lemma do_feedhold_escalated (k : swSlot) (s : switch_t) (e : env) :
  escalated (mode s) e (snd (_do_feedhold s (log_call k e))).
Proof.
  unfold escalated, _do_feedhold, log_call. cbn [cm IndicatorLed calls].
  destruct (Z.eqb_spec (cycle_state (cm e)) CYCLE_HOMING) as [Hh|Hh]; cbn.
  - repeat split; intros; try reflexivity; try assumption; contradiction.
  - destruct (Z.eqb_spec (Z.land (mode s) SW_LIMIT_BIT) 0) as [Hl|Hl]; cbn;
      repeat split; intros; try reflexivity; try assumption; contradiction.
Qed.

Lemma read_switch_escalated (s : switch_t) (pin_value now : Z) (e : env) :
  escalated (mode s) e (env_after (read_switch s pin_value now e)).
Proof.
  destruct (read_switch_env_cases s pin_value now e) as [-> | (k & s' & Hm & ->)].
  - unfold escalated. repeat split; intros; try reflexivity; assumption.
  - rewrite <- Hm.
    destruct (invoke_env k s' e) as [-> | ->].
    + unfold escalated, log_call. cbn.
      repeat split; intros; try reflexivity; assumption.
    + apply do_feedhold_escalated.
Qed.

Lemma read_switch_calls (s : switch_t) (pin_value now : Z) (e : env) :
  exists ks,
    calls (env_after (read_switch s pin_value now e)) = ks ++ calls e /\
    (length ks <= 1)%nat.
Proof.
  destruct (read_switch_env_cases s pin_value now e) as [-> | (k & s' & _ & ->)].
  - exists []. split; [reflexivity | cbn; lia].
  - exists [k]. rewrite invoke_calls. split; [reflexivity | cbn; lia].
Qed.

(** ** Further properties of the polling cycle *)

Lemma slot_eqb_eq (a a' : axis) (p p' : swPosition) :
  axis_eqb a a' && swPosition_eqb p p' = true <-> (a, p) = (a', p').
Proof.
  destruct a, a', p, p'; cbn; split; intros H;
    try reflexivity; try discriminate.
Qed.

Lemma set_switch_same (sw : switches_t) (a : axis) (p : swPosition) (v : switch_t) :
  sw_s (set_switch sw a p v) a p = v.
Proof. destruct a, p; reflexivity. Qed.

Lemma set_switch_other (sw : switches_t) (a a' : axis) (p p' : swPosition) (v : switch_t) :
  (a, p) <> (a', p') ->
  sw_s (set_switch sw a p v) a' p' = sw_s sw a' p'.
Proof.
  intros Hne. cbn.
  destruct (axis_eqb a a' && swPosition_eqb p p') eqn:E; [|reflexivity].
  apply slot_eqb_eq in E. contradiction.
Qed.

Lemma read_slot_eq (pins now : axis -> swPosition -> Z) (sw : switches_t) (e : env)
  (a : axis) (p : swPosition) :
  read_slot pins now (sw, e) (a, p) =
  (set_switch sw a p (switch_after (read_switch (sw_s sw a p) (pins a p) (now a p) e)),
   env_after (read_switch (sw_s sw a p) (pins a p) (now a p) e)).
Proof.
  unfold read_slot, switch_after, env_after.
  destruct (read_switch (sw_s sw a p) (pins a p) (now a p) e) as [[r s] e'].
  reflexivity.
Qed.

Lemma poll_switches_fold (pins now : axis -> swPosition -> Z) (sw : switches_t) (e : env) :
  poll_switches pins now sw e =
  (false, fst (fold_left (read_slot pins now) all_slots (sw, e)),
          snd (fold_left (read_slot pins now) all_slots (sw, e))).
Proof. reflexivity. Qed.

Lemma all_slots_NoDup : NoDup all_slots.
Proof.
  unfold all_slots. cbn [flat_map map app axes positions].
  repeat (constructor; [cbn; intuition discriminate|]). constructor.
Qed.

Lemma all_slots_In (a : axis) (p : swPosition) : In (a, p) all_slots.
Proof. destruct a, p; cbn; tauto. Qed.

(** Polling a list of distinct slots: a slot of the list ends as one call
    of [read_switch] on what it held leaves it, whatever the outside state;
    the other slots and the table-wide type are not touched. *)
Lemma fold_read_slot_table (pins now : axis -> swPosition -> Z)
  (l : list (axis * swPosition)) :
  NoDup l ->
  forall (sw : switches_t) (e : env),
    sw_type (fst (fold_left (read_slot pins now) l (sw, e))) = sw_type sw /\
    forall a p,
      (In (a, p) l -> forall e0,
         sw_s (fst (fold_left (read_slot pins now) l (sw, e))) a p =
         switch_after (read_switch (sw_s sw a p) (pins a p) (now a p) e0)) /\
      (~ In (a, p) l ->
         sw_s (fst (fold_left (read_slot pins now) l (sw, e))) a p = sw_s sw a p).
Proof.
  induction 1 as [|[a0 p0] l' Hnotin Hnd IH]; intros sw e.
  - cbn. split; [reflexivity|]. intros a p. split; [contradiction|reflexivity].
  - cbn [fold_left]. rewrite read_slot_eq.
    match goal with |- context [fold_left _ l' (?sw1, ?e1)] =>
      destruct (IH sw1 e1) as [Hty Hslots] end.
    split; [rewrite Hty; reflexivity|].
    intros a p. destruct (Hslots a p) as [Hin Hout]. split.
    + intros [Heq | Hin'] e0.
      * inversion Heq; subst a0 p0.
        rewrite (Hout Hnotin), set_switch_same.
        apply read_switch_env_indep.
      * assert (Hne : (a0, p0) <> (a, p)) by (intros Heq; rewrite Heq in Hnotin; contradiction).
        rewrite (Hin Hin' e0), (set_switch_other _ _ _ _ _ _ Hne). reflexivity.
    + intros Hnin.
      assert (Hne : (a0, p0) <> (a, p)) by (intros Heq; apply Hnin; left; exact Heq).
      assert (Hnin' : ~ In (a, p) l') by (intros Hi; apply Hnin; right; exact Hi).
      rewrite (Hout Hnin'), (set_switch_other _ _ _ _ _ _ Hne). reflexivity.
Qed.

(** An invariant [Q] of the switches and a preorder [R] of outside states
    that every call respects carry over to a polling cycle. *)
Lemma fold_read_slot_invariant (pins now : axis -> swPosition -> Z)
  (Q : switch_t -> Prop) (R : env -> env -> Prop) :
  (forall e, R e e) ->
  (forall e1 e2 e3, R e1 e2 -> R e2 e3 -> R e1 e3) ->
  (forall s pin_value t e, Q s ->
     Q (switch_after (read_switch s pin_value t e)) /\
     R e (env_after (read_switch s pin_value t e))) ->
  forall (l : list (axis * swPosition)) (sw : switches_t) (e : env),
    (forall a p, Q (sw_s sw a p)) ->
    (forall a p, Q (sw_s (fst (fold_left (read_slot pins now) l (sw, e))) a p)) /\
    R e (snd (fold_left (read_slot pins now) l (sw, e))).
Proof.
  intros Hrefl Htrans Hstep.
  induction l as [|[a0 p0] l' IH]; intros sw e HQ.
  - cbn. split; [exact HQ | apply Hrefl].
  - cbn [fold_left]. rewrite read_slot_eq.
    destruct (Hstep (sw_s sw a0 p0) (pins a0 p0) (now a0 p0) e (HQ a0 p0)) as [HQ1 HR1].
    match goal with |- context [fold_left _ l' (?sw1, ?e1)] =>
      destruct (IH sw1 e1) as [HQ2 HR2] end.
    { intros a p. cbn.
      destruct (axis_eqb a0 a && swPosition_eqb p0 p); [exact HQ1 | apply HQ]. }
    split; [exact HQ2|]. eapply Htrans; eassumption.
Qed.

Lemma poll_env_ext (pins now : axis -> swPosition -> Z) (sw1 sw2 : switches_t)
  (l : list (axis * swPosition)) (e : env) :
  (forall a p, In (a, p) l -> sw_s sw1 a p = sw_s sw2 a p) ->
  poll_env pins now sw1 l e = poll_env pins now sw2 l e.
Proof.
  revert e. induction l as [|[a0 p0] l' IH]; intros e Hsame.
  - reflexivity.
  - cbn [poll_env]. rewrite (Hsame a0 p0 (or_introl eq_refl)).
    apply IH. intros a p Hin. apply Hsame. right. exact Hin.
Qed.

(** Polling a list of distinct slots leaves the outside state that the
    calls of [read_switch] on the slots' previous records leave, in the
    order of the list. *)
Lemma fold_read_slot_env (pins now : axis -> swPosition -> Z)
  (l : list (axis * swPosition)) :
  NoDup l ->
  forall (sw : switches_t) (e : env),
    snd (fold_left (read_slot pins now) l (sw, e)) = poll_env pins now sw l e.
Proof.
  induction 1 as [|[a0 p0] l' Hnotin Hnd IH]; intros sw e.
  - reflexivity.
  - cbn [fold_left poll_env]. rewrite read_slot_eq, IH.
    apply poll_env_ext. intros a p Hin.
    apply set_switch_other. intros Heq. inversion Heq; subst a0 p0.
    contradiction.
Qed.

(** C8: [poll_switches] calls [read_switch] once for every slot of the
    table, in the fixed order of [all_slots] (by axis, then by position
    within the axis), and returns false whatever those calls returned.  For
    every slot, with [before] the slots polled before it: the slot ends as
    the call of [read_switch] on its previous record, its pin sample and
    its tick count leaves it, that call being made in the outside state the
    calls for the slots of [before] left; the outside state after the cycle
    is the one the twelve calls leave in that order; no slot is polled
    twice and none is left out. *)
Theorem poll_switches_all_slots (pins now : axis -> swPosition -> Z)
  (sw : switches_t) (e : env) :
  fst (fst (poll_switches pins now sw e)) = false /\
  (forall before a p after,
     all_slots = before ++ (a, p) :: after ->
     sw_s (snd (fst (poll_switches pins now sw e))) a p =
     switch_after
       (read_switch (sw_s sw a p) (pins a p) (now a p)
          (poll_env pins now sw before e))) /\
  snd (poll_switches pins now sw e) = poll_env pins now sw all_slots e /\
  sw_type (snd (fst (poll_switches pins now sw e))) = sw_type sw /\
  all_slots =
    [(AXIS_X, SW_MIN); (AXIS_X, SW_MAX); (AXIS_Y, SW_MIN); (AXIS_Y, SW_MAX);
     (AXIS_Z, SW_MIN); (AXIS_Z, SW_MAX); (AXIS_A, SW_MIN); (AXIS_A, SW_MAX);
     (AXIS_B, SW_MIN); (AXIS_B, SW_MAX); (AXIS_C, SW_MIN); (AXIS_C, SW_MAX)] /\
  NoDup all_slots /\
  (forall a p, In (a, p) all_slots).
Proof.
  rewrite poll_switches_fold. cbn [fst snd].
  destruct (fold_read_slot_table pins now all_slots all_slots_NoDup sw e) as [Hty Hslots].
  split; [reflexivity|].
  split.
  { intros before a p after Hsplit.
    apply (proj1 (Hslots a p)).
    rewrite Hsplit. apply in_or_app. right. left. reflexivity. }
  split; [apply fold_read_slot_env; exact all_slots_NoDup|].
  split; [exact Hty|].
  split; [reflexivity|].
  split; [exact all_slots_NoDup | exact all_slots_In].
Qed.

(** X7: the switches are polled independently.  After [poll_switches]
    every slot holds what one call of [read_switch] on its own previous
    record, pin sample and tick count leaves, whatever the outside state at
    that call and whatever happened to the other slots; the table-wide type
    is unchanged. *)
Theorem poll_switches_slotwise (pins now : axis -> swPosition -> Z)
  (sw : switches_t) (e : env) (a : axis) (p : swPosition) (e0 : env) :
  sw_s (snd (fst (poll_switches pins now sw e))) a p =
    switch_after (read_switch (sw_s sw a p) (pins a p) (now a p) e0) /\
  sw_type (snd (fst (poll_switches pins now sw e))) = sw_type sw.
Proof.
  rewrite poll_switches_fold. cbn [fst snd].
  destruct (fold_read_slot_table pins now all_slots all_slots_NoDup sw e) as [Hty Hslots].
  split; [|exact Hty].
  apply (proj1 (Hslots a p)). apply all_slots_In.
Qed.

(** X4: the request flags are set-only.  A polling cycle never changes the
    cycle state and never clears the feedhold request or the limit flag. *)
Theorem poll_switches_flags_sticky (pins now : axis -> swPosition -> Z)
  (sw : switches_t) (e : env) :
  let e' := snd (poll_switches pins now sw e) in
  cycle_state (cm e') = cycle_state (cm e) /\
  (request_feedhold (cm e) = true -> request_feedhold (cm e') = true) /\
  (limit_flag (cm e) = true -> limit_flag (cm e') = true).
Proof.
  rewrite poll_switches_fold. cbn [snd].
  apply (fold_read_slot_invariant pins now (fun _ => True)
           (fun e e' =>
              cycle_state (cm e') = cycle_state (cm e) /\
              (request_feedhold (cm e) = true -> request_feedhold (cm e') = true) /\
              (limit_flag (cm e) = true -> limit_flag (cm e') = true))).
  - intros e1. auto.
  - intros e1 e2 e3 (A1 & A2 & A3) (B1 & B2 & B3).
    repeat split; [congruence | auto | auto].
  - intros s pin_value t e1 _. split; [exact I|].
    destruct (read_switch_escalated s pin_value t e1) as (H1 & H2 & H3 & _).
    auto.
  - intros; exact I.
Qed.

(** X5: one escalation per cycle state.  If the machine is homing, a
    polling cycle leaves the limit flag as it was, whatever the switches
    do; if it is not homing, the cycle leaves the feedhold request as it
    was. *)
Theorem poll_switches_one_flag (pins now : axis -> swPosition -> Z)
  (sw : switches_t) (e : env) :
  let e' := snd (poll_switches pins now sw e) in
  (cycle_state (cm e) = CYCLE_HOMING -> limit_flag (cm e') = limit_flag (cm e)) /\
  (cycle_state (cm e) <> CYCLE_HOMING ->
     request_feedhold (cm e') = request_feedhold (cm e)).
Proof.
  rewrite poll_switches_fold. cbn [snd].
  apply (fold_read_slot_invariant pins now (fun _ => True)
           (fun e e' =>
              cycle_state (cm e') = cycle_state (cm e) /\
              (cycle_state (cm e) = CYCLE_HOMING -> limit_flag (cm e') = limit_flag (cm e)) /\
              (cycle_state (cm e) <> CYCLE_HOMING ->
                 request_feedhold (cm e') = request_feedhold (cm e)))).
  - intros e1. auto.
  - intros e1 e2 e3 (A1 & A2 & A3) (B1 & B2 & B3).
    split; [congruence|]. split; intros Hc.
    + rewrite B2, A2; [reflexivity | assumption | congruence].
    + rewrite B3, A3; [reflexivity | assumption | congruence].
  - intros s pin_value t e1 _. split; [exact I|].
    destruct (read_switch_escalated s pin_value t e1) as (H1 & _ & _ & H4 & H5 & _).
    auto.
  - intros; exact I.
Qed.

(** X6: only limit switches raise the limit flag.  If no slot of the table
    has the limit bit in its mode, a polling cycle leaves the limit flag as
    it was, in every cycle state and for every sample. *)
Theorem poll_switches_no_limit_bit (pins now : axis -> swPosition -> Z)
  (sw : switches_t) (e : env) :
  (forall a p, Z.land (mode (sw_s sw a p)) SW_LIMIT_BIT = 0) ->
  limit_flag (cm (snd (poll_switches pins now sw e))) = limit_flag (cm e).
Proof.
  intros Hno. rewrite poll_switches_fold. cbn [snd].
  apply (fold_read_slot_invariant pins now
           (fun s => Z.land (mode s) SW_LIMIT_BIT = 0)
           (fun e e' => limit_flag (cm e') = limit_flag (cm e))).
  - reflexivity.
  - intros e1 e2 e3 A B. congruence.
  - intros s pin_value t e1 HQ. split.
    + destruct (read_switch_config s pin_value t e1) as (_ & Hm & _).
      rewrite Hm. exact HQ.
    + destruct (read_switch_escalated s pin_value t e1) as (_ & _ & _ & _ & _ & H6).
      auto.
  - exact Hno.
Qed.

Lemma fold_read_slot_calls (pins now : axis -> swPosition -> Z)
  (l : list (axis * swPosition)) (sw : switches_t) (e : env) :
  exists ks,
    calls (snd (fold_left (read_slot pins now) l (sw, e))) = ks ++ calls e /\
    (length ks <= length l)%nat.
Proof.
  revert sw e. induction l as [|[a0 p0] l' IH]; intros sw e.
  - exists []. split; [reflexivity | cbn; lia].
  - cbn [fold_left]. rewrite read_slot_eq.
    destruct (read_switch_calls (sw_s sw a0 p0) (pins a0 p0) (now a0 p0) e)
      as (k1 & Hc1 & Hl1).
    match goal with |- context [fold_left _ l' (?sw1, ?e1)] =>
      destruct (IH sw1 e1) as (k2 & Hc2 & Hl2) end.
    exists (k2 ++ k1). split.
    + rewrite Hc2, Hc1. apply app_assoc.
    + rewrite length_app. cbn [length]. lia.
Qed.

(** X8: callbacks per poll.  One call of [read_switch] runs at most one
    callback, and a polling cycle at most twelve, one per slot. *)
Theorem poll_switches_calls (pins now : axis -> swPosition -> Z)
  (sw : switches_t) (e : env) :
  (forall s pin_value t,
     exists ks,
       calls (env_after (read_switch s pin_value t e)) = ks ++ calls e /\
       (length ks <= 1)%nat) /\
  exists ks,
    calls (snd (poll_switches pins now sw e)) = ks ++ calls e /\
    (length ks <= 12)%nat.
Proof.
  split.
  - intros s pin_value t. apply read_switch_calls.
  - rewrite poll_switches_fold. cbn [snd].
    apply (fold_read_slot_calls pins now all_slots sw e).
Qed.

(** X9: polling a table of disabled switches does nothing: the table and
    the outside state are as they were and no callback runs. *)
Theorem poll_switches_disabled_table (pins now : axis -> swPosition -> Z)
  (sw : switches_t) (e : env) :
  (forall a p, mode (sw_s sw a p) = SW_MODE_DISABLED) ->
  fst (fst (poll_switches pins now sw e)) = false /\
  (forall a p, sw_s (snd (fst (poll_switches pins now sw e))) a p = sw_s sw a p) /\
  sw_type (snd (fst (poll_switches pins now sw e))) = sw_type sw /\
  snd (poll_switches pins now sw e) = e.
Proof.
  intros Hdis. rewrite poll_switches_fold. cbn [fst snd].
  destruct (fold_read_slot_table pins now all_slots all_slots_NoDup sw e) as [Hty Hslots].
  split; [reflexivity|]. split; [|split; [exact Hty|]].
  - intros a p.
    rewrite (proj1 (Hslots a p) (all_slots_In a p) e).
    rewrite (read_switch_disabled_eq _ _ _ _ (Hdis a p)). reflexivity.
  - symmetry.
    apply (fold_read_slot_invariant pins now
             (fun s => mode s = SW_MODE_DISABLED) (fun e e' => e = e')).
    + reflexivity.
    + intros e1 e2 e3 A B. congruence.
    + intros s pin_value t e1 HQ.
      rewrite (read_switch_disabled_eq s pin_value t e1 HQ). auto.
    + exact Hdis.
Qed.

(** ** Further properties of the initialization *)

Lemma switch_init_slot (sw : switches_t) (a : axis) (p : swPosition) :
  sw_s (switch_init sw) a p = init_switch sw (sw_s sw a p) /\
  sw_type (switch_init sw) = sw_type sw.
Proof. destruct a, p; split; reflexivity. Qed.

(** X10: initialization forgets everything but the modes.  [switch_init]
    is idempotent, and running it after a polling cycle gives the table it
    gives before the cycle: debounced states, edges and armed lockouts are
    all reset, only the mode of each slot survives. *)
Theorem switch_init_resets (pins now : axis -> swPosition -> Z)
  (sw : switches_t) (e : env) (a : axis) (p : swPosition) :
  sw_s (switch_init (switch_init sw)) a p = sw_s (switch_init sw) a p /\
  sw_s (switch_init (snd (fst (poll_switches pins now sw e)))) a p =
    sw_s (switch_init sw) a p.
Proof.
  split.
  - rewrite !(proj1 (switch_init_slot _ a p)).
    unfold init_switch. rewrite (proj2 (switch_init_slot sw a p)).
    reflexivity.
  - rewrite poll_switches_fold. cbn [fst snd].
    destruct (fold_read_slot_table pins now all_slots all_slots_NoDup sw e) as [Hty Hslots].
    rewrite !(proj1 (switch_init_slot _ a p)).
    unfold init_switch. rewrite Hty.
    rewrite (proj1 (Hslots a p) (all_slots_In a p) e).
    destruct (read_switch_config (sw_s sw a p) (pins a p) (now a p) e) as (_ & Hm & _).
    rewrite Hm. reflexivity.
Qed.

(** X12: the first poll of a freshly initialized switch.  Take a slot of a
    table after [switch_init] whose mode is not disabled, with table-wide
    wiring 0 or 1.  A sample equal to the wiring value (0 for normally
    open, 1 for normally closed) is accepted at any tick: the switch
    closes with a leading edge, the lockout is armed for
    [SW_LOCKOUT_TICKS], and [_do_feedhold] runs once.  The other sample
    returns false, leaves the switch open and runs only the no-op
    [when_open]. *)
Theorem switch_init_first_poll (sw : switches_t) (a : axis) (p : swPosition)
  (now : Z) (e : env) :
  sw_type sw = SW_NORMALLY_OPEN \/ sw_type sw = SW_NORMALLY_CLOSED ->
  mode (sw_s sw a p) <> SW_MODE_DISABLED ->
  let s := sw_s (switch_init sw) a p in
  let s' := switch_after (read_switch s (sw_type sw) now e) in
  returned (read_switch s (sw_type sw) now e) = true /\
  state s' = SW_CLOSED /\ edge s' = SW_LEADING /\
  debounce_timeout s' = tick_wrap (now + SW_LOCKOUT_TICKS) /\
  env_after (read_switch s (sw_type sw) now e) =
    snd (_do_feedhold s' (log_call ON_LEADING e)) /\
  read_switch s (1 - sw_type sw) now e = (false, s, log_call WHEN_OPEN e).
Proof.
  intros Hty Hen s s'. subst s' s.
  rewrite (proj1 (switch_init_slot sw a p)).
  set (s := init_switch sw (sw_s sw a p)).
  assert (Hen' : mode s <> SW_MODE_DISABLED) by exact Hen.
  assert (Hfree : debounce_timeout s = 0 \/ debounce_timeout s <= now)
    by (left; reflexivity).
  assert (Hc : pin_sense_corrected s (sw_type sw) = 1).
  { unfold pin_sense_corrected, s. cbn [type init_switch].
    destruct Hty as [-> | ->]; reflexivity. }
  assert (Hne : pin_sense_corrected s (sw_type sw) <> state s).
  { rewrite Hc. cbn. discriminate. }
  rewrite (read_switch_accept s (sw_type sw) now e Hen' Hne Hfree), Hc.
  unfold returned, switch_after, env_after. cbn [fst snd].
  repeat split.
  assert (Hc' : pin_sense_corrected s (1 - sw_type sw) = state s).
  { unfold pin_sense_corrected, s. cbn [type state init_switch].
    destruct Hty as [-> | ->]; reflexivity. }
  unfold read_switch.
  destruct (Z.eqb_spec (mode s) SW_MODE_DISABLED) as [|_]; [contradiction|].
  rewrite Hc', Z.eqb_refl. reflexivity.
Qed.

(** X13: the lockout is lost when the tick counter is about to wrap.  Let a
    transition be accepted at tick [T] with lockout duration [D], both tick
    counts, where [T + D] reaches [2 ^ TICK_BITS], so that the stored
    timeout wraps around.  Then the very next differing sample, at tick [T]
    or any later tick, is accepted: nothing is debounced. *)
Theorem read_switch_lockout_wrap (s0 : switch_t) (pin0 T : Z) (e0 : env)
  (s1 : switch_t) (e1 : env) (D : Z) :
  read_switch s0 pin0 T e0 = (true, s1, e1) ->
  debounce_ticks s0 = D ->
  0 <= T < 2 ^ Z.of_N TICK_BITS ->
  0 <= D <= 2 ^ Z.of_N TICK_BITS ->
  2 ^ Z.of_N TICK_BITS <= T + D ->
  debounce_timeout s1 = T + D - 2 ^ Z.of_N TICK_BITS /\
  forall pin_value now e,
    pin_sense_corrected s1 pin_value <> state s1 -> T <= now ->
    returned (read_switch s1 pin_value now e) = true.
Proof.
  intros Hacc HD HT HDr Hwrap.
  destruct (read_switch_true _ _ _ _ _ _ Hacc) as (Hen0 & _ & Hs1).
  assert (Hto : debounce_timeout s1 = T + D - 2 ^ Z.of_N TICK_BITS).
  { rewrite Hs1. unfold accepted. cbn. rewrite HD. unfold tick_wrap.
    symmetry. apply (Z.mod_unique _ _ 1); lia. }
  assert (Hen1 : mode s1 <> SW_MODE_DISABLED).
  { rewrite Hs1. unfold accepted. cbn. exact Hen0. }
  split; [exact Hto|].
  intros pin_value now e Hne Hge.
  rewrite (read_switch_accept s1 pin_value now e Hen1 Hne); [reflexivity|].
  right. lia.
Qed.

End Properties.

(** ** The properties on concrete switches *)

#[local] Existing Instance tinyg2_h.

(** The scenario of the specification, call by call: open sample at tick 0,
    closing sample at tick 10 outside a homing cycle, opening samples at
    ticks 30 and 65. *)
Example scenario_polls :
  read_switch_seq scenario_switch [(1, 0); (0, 10); (1, 30); (1, 65)] idle_env =
  ([false; true; false; true],
   mk_switch SW_NORMALLY_OPEN 2 SW_OPEN SW_TRAILING 50 115
             cb_no_action cb_no_action cb_do_feedhold cb_no_action,
   mk_env (mk_cm 0 false true) true [ON_TRAILING; ON_LEADING; WHEN_OPEN]).
Proof. vm_compute. reflexivity. Qed.

Example scenario_lockout_armed :
  read_switch scenario_switch 0 10 idle_env =
  (true, closed_switch, mk_env (mk_cm 0 false true) true [ON_LEADING]).
Proof. vm_compute. reflexivity. Qed.

(** One polling cycle over a table of open limit switches whose pins all
    read 0 at tick 10, outside a homing cycle: every slot closes, each call
    of [read_switch] returns true and runs the leading edge callback, and
    [poll_switches] returns false. *)
Example poll_switches_closing :
  let r := poll_switches (fun _ _ => 0) (fun _ _ => 10) configured_table idle_env in
  fst (fst r) = false /\
  map (fun slot => sw_s (snd (fst r)) (fst slot) (snd slot)) all_slots =
    repeat closed_switch 12 /\
  snd r = mk_env (mk_cm 0 false true) false (repeat ON_LEADING 12).
Proof. vm_compute. repeat split. Qed.

(** The escalation action on the three cases: homing, limit switch outside
    homing, and a switch without the limit bit outside homing. *)
Lemma do_feedhold_escalation_witness :
  request_feedhold (cm (snd (_do_feedhold homing_switch homing_env))) = true /\
  limit_flag (cm (snd (_do_feedhold scenario_switch idle_env))) = true /\
  cm (snd (_do_feedhold homing_switch idle_env)) = cm idle_env.
Proof.
  pose proof (do_feedhold_escalation (hdr := tinyg2_h) homing_switch homing_env) as H1.
  pose proof (do_feedhold_escalation (hdr := tinyg2_h) scenario_switch idle_env) as H2.
  pose proof (do_feedhold_escalation (hdr := tinyg2_h) homing_switch idle_env) as H3.
  destruct (_do_feedhold homing_switch homing_env) as [s1 e1].
  destruct (_do_feedhold scenario_switch idle_env) as [s2 e2].
  destruct (_do_feedhold homing_switch idle_env) as [s3 e3].
  cbn [snd].
  destruct H1 as (_ & _ & _ & _ & Hhoming & _).
  destruct H2 as (_ & _ & _ & _ & _ & Hlimit & _).
  destruct H3 as (_ & _ & _ & _ & _ & _ & Hnone).
  split; [apply Hhoming; reflexivity|].
  split; [apply Hlimit; discriminate|].
  apply Hnone; [discriminate|reflexivity].
Defined.

(** The scenario switch closes at tick 10 with a lockout of 50 ticks: the
    opening sample at tick 30 is dropped, the one at tick 65 accepted. *)
Lemma read_switch_lockout_witness :
  read_switch scenario_switch 0 10 idle_env =
    (true, closed_switch, mk_env (mk_cm 0 false true) true [ON_LEADING]) /\
  debounce_timeout closed_switch = 60 /\
  read_switch closed_switch 1 30 idle_env = (false, closed_switch, idle_env) /\
  returned (read_switch closed_switch 1 65 idle_env) = true.
Proof.
  destruct (read_switch_lockout (hdr := tinyg2_h) scenario_switch 0 10 idle_env closed_switch
              (mk_env (mk_cm 0 false true) true [ON_LEADING]) 50
              eq_refl eq_refl ltac:(vm_compute; split; congruence) ltac:(discriminate))
    as (Hto & Hsup & Hacc & _).
  split; [reflexivity|].
  split; [exact Hto|].
  split.
  - apply Hsup; [discriminate|reflexivity].
  - rewrite (Hacc 1 65 idle_env); [reflexivity|discriminate|discriminate].
Defined.

(** Sample 0 closes the normally open scenario switch and leaves the
    normally closed one open. *)
Lemma read_switch_polarity_witness :
  state (switch_after (read_switch scenario_switch 0 10 idle_env)) = SW_CLOSED /\
  state (switch_after (read_switch scenario_switch_nc 0 10 idle_env)) = SW_OPEN.
Proof.
  split.
  - apply (read_switch_polarity (hdr := tinyg2_h) scenario_switch 10 idle_env);
      [discriminate | left; reflexivity | reflexivity].
  - apply (read_switch_polarity (hdr := tinyg2_h) scenario_switch_nc 10 idle_env);
      [discriminate | left; reflexivity | reflexivity].
Defined.

(** C4 as the claim words it fails: for the normally open scenario switch
    the sample 0 is corrected to 1, where the claim's formula leaves it
    unmodified. *)
Lemma polarity_formula_counterexample :
  type scenario_switch = SW_NORMALLY_OPEN /\
  pin_sense_corrected scenario_switch 0 = 1 /\
  spec_corrected scenario_switch 0 = 0 /\
  pin_sense_corrected scenario_switch 0 <> spec_corrected scenario_switch 0.
Proof. repeat split. discriminate. Qed.

(** The corrected sample of the two scenario switches. *)
Lemma pin_sense_corrected_formula_witness :
  pin_sense_corrected scenario_switch 0 = Z.lxor 0 1 /\
  pin_sense_corrected scenario_switch_nc 1 = 1.
Proof.
  split.
  - apply (pin_sense_corrected_formula (hdr := tinyg2_h) scenario_switch 0 10 idle_env);
      [lia | discriminate | left; reflexivity | reflexivity].
  - apply (pin_sense_corrected_formula (hdr := tinyg2_h) scenario_switch_nc 1 10 idle_env);
      [lia | discriminate | left; reflexivity | reflexivity].
Defined.

(** The closing transition of the scenario switch: leading edge, one call of
    [on_leading]. *)
Lemma read_switch_transition_witness :
  read_switch scenario_switch 0 10 idle_env =
    (true, closed_switch, mk_env (mk_cm 0 false true) true [ON_LEADING]) /\
  edge closed_switch = SW_LEADING /\
  calls (mk_env (mk_cm 0 false true) true [ON_LEADING]) = ON_LEADING :: calls idle_env.
Proof.
  pose proof (read_switch_transition (hdr := tinyg2_h) scenario_switch 0 10 idle_env
                ltac:(discriminate) ltac:(discriminate) (or_introl eq_refl)) as H.
  change (read_switch scenario_switch 0 10 idle_env)
    with (true, closed_switch, mk_env (mk_cm 0 false true) true [ON_LEADING]) in H.
  destruct H as (_ & _ & _ & _ & Hc & _).
  destruct (Hc eq_refl) as (He & _ & Hcalls).
  split; [reflexivity|]. split; [exact He | exact Hcalls].
Defined.

(** The disabled switch under one call and under two. *)
Lemma read_switch_disabled_witness :
  read_switch disabled_switch 0 10 idle_env = (false, disabled_switch, idle_env) /\
  read_switch_seq disabled_switch [(0, 10); (1, 200)] idle_env =
    ([false; false], disabled_switch, idle_env).
Proof.
  destruct (read_switch_disabled (hdr := tinyg2_h) disabled_switch idle_env eq_refl) as [H1 H2].
  split; [apply H1 | apply (H2 [(0, 10); (1, 200)])].
Defined.


(** C9 as the claim words it fails: [switch_init] on a table whose slots
    were configured in limit mode leaves them in limit mode, not disabled.
    (The same holds under any header: a slot keeps whatever mode it had.) *)
Lemma switch_init_mode_counterexample :
  mode (sw_s configured_table AXIS_X SW_MIN) = 2 /\
  mode (sw_s (switch_init configured_table) AXIS_X SW_MIN) = 2 /\
  mode (sw_s (switch_init configured_table) AXIS_X SW_MIN) <> SW_MODE_DISABLED.
Proof. repeat split. discriminate. Qed.

(** ** The further properties on concrete switches *)

(** Tables of twelve disabled switches and of twelve switches without the
    limit bit. *)
Definition disabled_table : switches_t :=
  mk_switches SW_NORMALLY_OPEN (fun _ _ => disabled_switch).

Definition homing_table : switches_t :=
  mk_switches SW_NORMALLY_OPEN (fun _ _ => homing_switch).

(** The scenario switch after closing 20 ticks before the 32-bit tick
    counter wraps: the timeout stored is 30. *)
Definition wrapped_switch : switch_t :=
  mk_switch SW_NORMALLY_OPEN 2 SW_CLOSED SW_LEADING 50 30
            cb_no_action cb_no_action cb_do_feedhold cb_no_action.

(** The closing transition of the scenario switch is a leading edge from
    open to closed. *)
Lemma read_switch_edge_direction_witness :
  state scenario_switch = SW_OPEN /\
  state (switch_after (read_switch scenario_switch 0 10 idle_env)) = SW_CLOSED /\
  edge (switch_after (read_switch scenario_switch 0 10 idle_env)) = SW_LEADING.
Proof.
  destruct (read_switch_edge_direction (hdr := tinyg2_h) scenario_switch 0 10 idle_env
              (or_introl eq_refl) (or_introl eq_refl) (or_introl eq_refl) eq_refl)
    as [H | (Hc & _)].
  - exact H.
  - discriminate Hc.
Defined.

(** All twelve limit switches close while homing: the feedhold request is
    set and the limit flag stays clear. *)
Lemma poll_switches_one_flag_witness :
  limit_flag (cm (snd (poll_switches (fun _ _ => 0) (fun _ _ => 10)
                         configured_table homing_env))) = false.
Proof.
  apply (proj1 (poll_switches_one_flag (hdr := tinyg2_h) (fun _ _ => 0) (fun _ _ => 10)
                  configured_table homing_env)).
  reflexivity.
Defined.

(** Twelve switches without the limit bit close outside homing: the limit
    flag stays clear. *)
Lemma poll_switches_no_limit_bit_witness :
  limit_flag (cm (snd (poll_switches (fun _ _ => 0) (fun _ _ => 10)
                         homing_table idle_env))) = false.
Proof.
  apply (poll_switches_no_limit_bit (hdr := tinyg2_h) (fun _ _ => 0) (fun _ _ => 10)
           homing_table idle_env).
  intros a p. reflexivity.
Defined.

(** Polling the table of disabled switches with closing samples. *)
Lemma poll_switches_disabled_table_witness :
  sw_s (snd (fst (poll_switches (fun _ _ => 0) (fun _ _ => 10)
                    disabled_table idle_env))) AXIS_Z SW_MAX = disabled_switch /\
  snd (poll_switches (fun _ _ => 0) (fun _ _ => 10) disabled_table idle_env) = idle_env.
Proof.
  destruct (poll_switches_disabled_table (hdr := tinyg2_h) (fun _ _ => 0) (fun _ _ => 10)
              disabled_table idle_env (fun _ _ => eq_refl))
    as (_ & Hslots & _ & Henv).
  split; [apply (Hslots AXIS_Z SW_MAX) | exact Henv].
Defined.

(** The configured table after [switch_init]: sample 0 at tick 7 closes the
    X minimum switch and arms the lockout until tick 107; sample 1 leaves it
    alone. *)
Lemma switch_init_first_poll_witness :
  returned (read_switch (sw_s (switch_init configured_table) AXIS_X SW_MIN) 0 7 idle_env)
    = true /\
  debounce_timeout
    (switch_after (read_switch (sw_s (switch_init configured_table) AXIS_X SW_MIN)
                     0 7 idle_env)) = 107 /\
  read_switch (sw_s (switch_init configured_table) AXIS_X SW_MIN) 1 7 idle_env =
    (false, sw_s (switch_init configured_table) AXIS_X SW_MIN, log_call WHEN_OPEN idle_env).
Proof.
  destruct (switch_init_first_poll (hdr := tinyg2_h) configured_table AXIS_X SW_MIN 7 idle_env
              (or_introl eq_refl) ltac:(discriminate))
    as (Hr & _ & _ & Hto & _ & Hopen).
  split; [exact Hr|]. split; [exact Hto | exact Hopen].
Defined.

(** The scenario switch closes at tick 2^32 - 20 with a lockout of 50 ticks;
    an opening sample 4 ticks later is accepted. *)
Lemma read_switch_lockout_wrap_witness :
  read_switch scenario_switch 0 4294967276 idle_env =
    (true, wrapped_switch, mk_env (mk_cm 0 false true) true [ON_LEADING]) /\
  returned (read_switch wrapped_switch 1 4294967280 idle_env) = true.
Proof.
  destruct (read_switch_lockout_wrap (hdr := tinyg2_h) scenario_switch 0 4294967276 idle_env
              wrapped_switch (mk_env (mk_cm 0 false true) true [ON_LEADING]) 50
              eq_refl eq_refl
              ltac:(vm_compute; split; congruence)
              ltac:(vm_compute; split; congruence)
              ltac:(vm_compute; congruence))
    as [_ Hacc].
  split; [reflexivity|].
  apply Hacc; [discriminate | vm_compute; congruence].
Defined.
